(** * Verification of nanobind/stl/bind_map.h

    A shallow embedding of the bindings that [bind_map<Map>] generates for a
    map-style C++ container.  The native container is an association list
    of (key, value) entries in the container's own iteration order; the
    container decides where a new entry is placed (sorted for [std::map],
    at the end for an insertion-ordered map, ...), which is abstracted by the
    [NativeMap] class below.  Python-visible objects (the map, its views and
    the iterators) live in an object heap whose keep-alive edges model
    [keep_alive<0, 1>()]. *)

From stdpp Require Import base list gmap.
From Stdlib Require Import Lia.

(* ------------------------------------------------------------------ *)
(** ** Native container *)

(** What the native container type fixes: where [emplace] puts a new key in
    the iteration order, and the default-constructed [mapped_type] used by
    [operator[]]. *)
Class NativeMap (K V : Type) := {
  place : list (K * V) -> K -> nat;
  default_value : V
}.

(** The Python-side type caster for [Key]: [Some k] when the Python object
    is of the map's native key type. *)
Class KeyCaster (Obj K : Type) := cast_key : Obj -> option K.

(** Exceptions surfaced to Python. *)
Inductive exc := KeyError | TypeError.

Inductive result (A : Type) :=
| ROk (a : A)
| RErr (e : exc).
Arguments ROk {A} a.
Arguments RErr {A} e.

Section Container.
Context {K V : Type} `{EqDecision K} `{NativeMap K V}.
Context {Obj : Type} `{KeyCaster Obj K}.

Definition Map := list (K * V).

(** [Map::find]: index of the entry with key [k], [None] is [m.end()]. *)
Fixpoint find (m : Map) (k : K) : option nat :=
  match m with
  | [] => None
  | (k', _) :: m' => if decide (k' = k) then Some 0 else S <$> find m' k
  end.

(** First-match lookup, the meaning of [it->second] after [find]. *)
Fixpoint first_val (m : Map) (k : K) : option V :=
  match m with
  | [] => None
  | (k', v) :: m' => if decide (k' = k) then Some v else first_val m' k
  end.

(** Position-based insertion / erasure / in-place assignment. *)
Definition insert_at (p : nat) (e : K * V) (m : Map) : Map :=
  take p m ++ e :: drop p m.

Definition erase_at (i : nat) (m : Map) : Map :=
  take i m ++ drop (S i) m.

Fixpoint assign_at (i : nat) (v : V) (m : Map) : Map :=
  match m, i with
  | [], _ => []
  | (k, _) :: m', 0 => (k, v) :: m'
  | e :: m', S i' => e :: assign_at i' v m'
  end.

(** [Map::emplace(k, v)]: iterator to the entry with key [k] and whether a
    new entry was constructed. *)
Definition emplace (m : Map) (k : K) (v : V) : Map * (nat * bool) :=
  match find m k with
  | Some i => (m, (i, false))
  | None => let p := place m k in (insert_at p (k, v) m, (min p (length m), true))
  end.

(** [Map::operator[](k)]: default-constructs a missing entry. *)
Definition subscript (m : Map) (k : K) : Map * nat :=
  match find m k with
  | Some i => (m, i)
  | None => let '(m', (i, _)) := emplace m k default_value in (m', i)
  end.

(** [Map::size], [Map::empty]. *)
Definition size (m : Map) : nat := length m.

Definition empty (m : Map) : bool :=
  match m with [] => true | _ => false end.

(** Keys are unique in the native container. *)
Definition wf (m : Map) : Prop := NoDup m.*1.

(* ------------------------------------------------------------------ *)
(** ** The bound methods *)

(** [__len__] *)
Definition len (m : Map) : nat := size m.

(** [__bool__]: [!m.empty()] *)
Definition is_nonempty (m : Map) : bool := negb (empty m).

(** The typed overload of [__contains__]: [m.find(k) != m.end()]. *)
Definition contains_key (m : Map) (k : K) : bool :=
  match find m k with Some _ => true | None => false end.

(** [__getitem__]: returns (a reference to) [it->second]; the map is passed
    through unchanged. *)
Definition getitem (m : Map) (k : K) : result V * Map :=
  match find m k with
  | None => (RErr KeyError, m)
  | Some i =>
      match m !! i with
      | Some (_, v) => (ROk v, m)
      | None => (RErr KeyError, m)
      end
  end.

(** [__delitem__] *)
Definition delitem (m : Map) (k : K) : result unit * Map :=
  match find m k with
  | None => (RErr KeyError, m)
  | Some i => (ROk tt, erase_at i m)
  end.

(** The two [__setitem__] strategies of the [if constexpr]. *)
Inductive strategy := AssignInPlace | EraseReconstruct.

(** Capabilities of [Value] tested by the [if constexpr]s. *)
Record value_caps := {
  copy_assignable : bool;
  copy_constructible : bool
}.

Definition select_strategy (c : value_caps) : option strategy :=
  if copy_assignable c then Some AssignInPlace
  else if copy_constructible c then Some EraseReconstruct
  else None.

Definition setitem (s : strategy) (m : Map) (k : K) (v : V) : Map :=
  match s with
  | AssignInPlace =>
      (* m[k] = v *)
      let '(m1, i) := subscript m k in assign_at i v m1
  | EraseReconstruct =>
      let '(m1, (i, inserted)) := emplace m k v in
      if inserted then m1
      else (emplace (erase_at i m1) k v).1
  end.

(** [__setitem__] is only defined when a strategy exists. *)
Definition bound_setitem (c : value_caps) : option (Map -> K -> V -> Map) :=
  setitem <$> select_strategy c.

(** Modelled from the spec: the iterator-wrapping facility of
    [make_iterator.h] (not part of this file), in its three flavours
    [make_key_iterator], [make_value_iterator] and [make_iterator]: the
    lazy sequence of keys, values or entries over [[m.begin(), m.end())] in
    the container's order. *)
Definition iter_keys (m : Map) : list K := m.*1.
Definition iter_values (m : Map) : list V := m.*2.
Definition iter_items (m : Map) : list (K * V) := m.

(** [Map.__iter__] is the key iterator. *)
Definition map_iter (m : Map) : list K := iter_keys m.


(* ------------------------------------------------------------------ *)
(** ** Overloaded [__contains__] *)

(** Modelled from the spec: nanobind's overload resolution (not part of
    this file).  The overloads of a method are tried in the order they
    were registered; the first one whose argument casters accept the Python
    arguments runs; when none accepts, a [TypeError] is raised. *)
Fixpoint dispatch {A : Type} (ovs : list (Obj -> option (result A))) (o : Obj)
    : result A :=
  match ovs with
  | [] => RErr TypeError
  | f :: ovs' =>
      match f o with
      | Some r => r
      | None => dispatch ovs' o
      end
  end.

(** The two [__contains__] overloads of the map: [(const Map &, const Key &)]
    and the fallback [(const Map &, handle)]. *)
Definition map_contains_overloads (m : Map) : list (Obj -> option (result bool)) :=
  [ (fun o => (fun k => ROk (contains_key m k)) <$> cast_key o);
    (fun _ => Some (ROk false)) ].

Definition contains (m : Map) (o : Obj) : result bool :=
  dispatch (map_contains_overloads m) o.

(** The two [__contains__] overloads of [KeyView], evaluated on [v.map]. *)
Definition keyview_contains_overloads (m : Map) : list (Obj -> option (result bool)) :=
  [ (fun o => (fun k => ROk (match find m k with Some _ => true | None => false end))
                <$> cast_key o);
    (fun _ => Some (ROk false)) ].

(* ------------------------------------------------------------------ *)
(** ** Python objects: the map, its views and iterators *)

Inductive view_kind := KeysView | ValuesView | ItemsView.
Inductive iter_flavour := KeyIter | ValueIter | ItemIter.

Definition flavour_of (vk : view_kind) : iter_flavour :=
  match vk with KeysView => KeyIter | ValuesView => ValueIter | ItemsView => ItemIter end.

(** A [KeyView]/[ValueView]/[ItemView] holds [Map &map]: a reference to the
    map object at address [l], not a copy. *)
Inductive pyobj :=
| MapObj (m : Map)
| ViewObj (vk : view_kind) (l : nat)
| IterObj (fl : iter_flavour) (src : nat).

(** The Python object heap.  [edges] are the keep-alive ties
    (nurse, patient): the patient stays alive while the nurse is alive. *)
Record state := mkState {
  heap : gmap nat pyobj;
  edges : list (nat * nat);
  roots : list nat;
  next : nat
}.

Definition init_state : state := mkState ∅ [] [] 0.

(** Modelled from the spec: the lifetime-extension primitive
    [keep_alive<0, 1>()] (not part of this file) ties the returned object
    (argument 0) to the first argument: the new object becomes a nurse of
    [target].  The result is returned to Python, which holds a reference. *)
Definition alloc (o : pyobj) (target : option nat) (st : state) : nat * state :=
  let l := next st in
  (l, mkState (<[l := o]> (heap st))
              (match target with Some t => (l, t) :: edges st | None => edges st end)
              (l :: roots st) (S l)).

(** [Map()] via [init<>()]. *)
Definition py_new (st : state) : nat * state := alloc (MapObj []) None st.

(** [keys()], [values()], [items()]: [new KeyView{m}] etc. with
    [keep_alive<0, 1>()]. *)
Definition py_view (vk : view_kind) (l : nat) (st : state) : option (nat * state) :=
  match heap st !! l with
  | Some (MapObj _) => Some (alloc (ViewObj vk l) (Some l) st)
  | _ => None
  end.

(** [__iter__] of the map and of the views, with [keep_alive<0, 1>()]. *)
Definition py_iter (l : nat) (st : state) : option (nat * state) :=
  match heap st !! l with
  | Some (MapObj _) => Some (alloc (IterObj KeyIter l) (Some l) st)
  | Some (ViewObj vk _) => Some (alloc (IterObj (flavour_of vk) l) (Some l) st)
  | _ => None
  end.

Definition set_map (l : nat) (m : Map) (st : state) : state :=
  mkState (<[l := MapObj m]> (heap st)) (edges st) (roots st) (next st).

Definition py_setitem (s : strategy) (l : nat) (k : K) (v : V) (st : state)
    : option state :=
  match heap st !! l with
  | Some (MapObj m) => Some (set_map l (setitem s m k v) st)
  | _ => None
  end.

Definition py_delitem (l : nat) (k : K) (st : state) : option (result unit * state) :=
  match heap st !! l with
  | Some (MapObj m) => let '(r, m') := delitem m k in Some (r, set_map l m' st)
  | _ => None
  end.

(** Python drops its references to [r]. *)
Definition py_drop (r : nat) (st : state) : state :=
  mkState (heap st) (edges st) (filter (fun x => x ≠ r) (roots st)) (next st).

(** The collector destroys [x]; the ties it held as a nurse go with it. *)
Definition collect (x : nat) (st : state) : state :=
  mkState (delete x (heap st)) (filter (fun e => e.1 ≠ x) (edges st))
          (roots st) (next st).

(** Objects kept alive: held by Python, or patients of a live nurse. *)
Inductive reachable (st : state) : nat -> Prop :=
| reach_root r : r ∈ roots st -> reachable st r
| reach_tie n p : reachable st n -> (n, p) ∈ edges st -> reachable st p.

(** One Python-level event.  A method is only called on an object Python
    holds; only unreachable objects are collected. *)
Inductive step : state -> state -> Prop :=
| step_new st : step st (py_new st).2
| step_view st vk l r st' :
    reachable st l -> py_view vk l st = Some (r, st') -> step st st'
| step_iter st l r st' :
    reachable st l -> py_iter l st = Some (r, st') -> step st st'
| step_setitem st s l k v st' :
    reachable st l -> py_setitem s l k v st = Some st' -> step st st'
| step_delitem st l k r st' :
    reachable st l -> py_delitem l k st = Some (r, st') -> step st st'
| step_drop st r : step st (py_drop r st)
| step_collect st x : ¬ reachable st x -> step st (collect x st).

Inductive reach_st : state -> Prop :=
| reach_init : reach_st init_state
| reach_step st st' : reach_st st -> step st st' -> reach_st st'.

(** Elements produced by the iterators. *)
Inductive elem := EKey (k : K) | EValue (v : V) | EItem (kv : K * V).

Definition project (vk : view_kind) (m : Map) : list elem :=
  match vk with
  | KeysView => EKey <$> iter_keys m
  | ValuesView => EValue <$> iter_values m
  | ItemsView => EItem <$> iter_items m
  end.

(** [__len__] and [__iter__] of a view, evaluated through [v.map] at the
    time of the call. *)
Definition view_map (st : state) (vo : nat) : option (view_kind * Map) :=
  match heap st !! vo with
  | Some (ViewObj vk l) =>
      match heap st !! l with
      | Some (MapObj m) => Some (vk, m)
      | _ => None
      end
  | _ => None
  end.

Definition view_len (st : state) (vo : nat) : option nat :=
  (fun '(_, m) => size m) <$> view_map st vo.

Definition view_iter (st : state) (vo : nat) : option (list elem) :=
  (fun '(vk, m) => project vk m) <$> view_map st vo.

Definition keyview_contains (st : state) (vo : nat) (o : Obj) : option (result bool) :=
  match view_map st vo with
  | Some (KeysView, m) => Some (dispatch (keyview_contains_overloads m) o)
  | _ => None
  end.

(** The map a view or an iterator derives from. *)
Definition owner_map (st : state) (ob : pyobj) : option nat :=
  match ob with
  | MapObj _ => None
  | ViewObj _ l => Some l
  | IterObj _ s =>
      match heap st !! s with
      | Some (MapObj _) => Some s
      | Some (ViewObj _ l) => Some l
      | _ => None
      end
  end.

(** [__getitem__] is bound with [rv_policy::reference_internal]: Python
    receives [it->second] itself, a reference into the map's storage.  The
    reference is modelled by the position of the entry it points to. *)
Definition getitem_ref (m : Map) (k : K) : result nat :=
  match find m k with
  | None => RErr KeyError
  | Some i => ROk i
  end.

(** A mutation [f] applied in place through such a reference. *)
Fixpoint update_through (i : nat) (f : V -> V) (m : Map) : Map :=
  match m, i with
  | [], _ => []
  | (k, v) :: m', 0 => (k, f v) :: m'
  | e :: m', S i' => e :: update_through i' f m'
  end.

(** The keep-alive ties as a relation: [ties st a b] when [a] keeps [b]
    alive through a chain of ties. *)
Definition tie (st : state) (a b : nat) : Prop := (a, b) ∈ edges st.
Definition ties (st : state) : nat -> nat -> Prop := rtc (tie st).

(** A live view holds a tie to a live map; a live iterator holds a tie to a
    live map or view. *)
Definition obj_ok (st : state) (o : nat) (ob : pyobj) : Prop :=
  match ob with
  | MapObj _ => True
  | ViewObj _ l => (o, l) ∈ edges st /\ ∃ m, heap st !! l = Some (MapObj m)
  | IterObj _ s =>
      (o, s) ∈ edges st /\
      ((∃ m, heap st !! s = Some (MapObj m)) \/ (∃ vk l, heap st !! s = Some (ViewObj vk l)))
  end.

Definition heap_inv (st : state) : Prop :=
  (∀ x, x ∈ roots st -> x < next st) /\
  (∀ a b, (a, b) ∈ edges st -> a < next st) /\
  (∀ x ob, heap st !! x = Some ob -> x < next st) /\
  (∀ o, reachable st o -> ∃ ob, heap st !! o = Some ob /\ obj_ok st o ob).

End Container.

(* ------------------------------------------------------------------ *)
(** ** A concrete instantiation: [std::map<nat, nat>] *)

(** Python values passed as keys. *)
Inductive pyval := PInt (n : nat) | PNone | PPair (a b : nat).

#[global] Instance nat_key_caster : KeyCaster pyval nat :=
  fun o => match o with PInt n => Some n | _ => None end.

(** [std::map] keeps its entries sorted by key; [mapped_type{}] is 0. *)
#[global] Instance std_map_nat : NativeMap nat nat := {
  place m k := length (filter (fun e : nat * nat => e.1 < k) m);
  default_value := 0
}.

Definition sample_map : @Map nat nat := [(1, 10); (3, 30); (5, 50)].

(** A [Value] that is copy-constructible but not copy-assignable. *)
Definition construct_only : value_caps :=
  {| copy_assignable := false; copy_constructible := true |}.

(** A Python session: create a map, fill it, take a view and an iterator. *)
Definition session0 : state := (py_new (K:=nat) (V:=nat) init_state).2.
Definition session1 : state :=
  default session0 (py_setitem AssignInPlace 0 1 10 session0).
Definition session2 : state :=
  default session1 ((py_view KeysView 0 session1) ≫= fun r => Some r.2).
Definition session3 : state :=
  default session2 (py_setitem EraseReconstruct 0 7 70 session2).
Definition session4 : state :=
  default session3 ((py_iter 1 session3) ≫= fun r => Some r.2).

(** ... then [del it]: Python drops the iterator. *)
Definition session5 : state := py_drop 2 session4.

(** Two more views of the map, after [session3]: [m.values()], [m.items()]. *)
Definition session3v : state :=
  default session3 ((py_view ValuesView 0 session3) ≫= fun r => Some r.2).
Definition session3vi : state :=
  default session3v ((py_view ItemsView 0 session3v) ≫= fun r => Some r.2).


(* ------------------------------------------------------------------ *)
(** ** Container lemmas *)

Section ContainerFacts.
Context {K V : Type} `{EqDecision K} `{NativeMap K V}.
Implicit Types (m : list (K * V)) (k : K) (v : V).

Lemma find_None_iff m k : find m k = None <-> k ∉ m.*1.
Proof.
  induction m as [|[k' v'] m IH]; simpl.
  - split; [intros _; apply not_elem_of_nil | done].
  - rewrite elem_of_cons. case_decide as Hk; subst.
    + split; [done|]. intros Hn. exfalso. apply Hn. by left.
    + rewrite fmap_None. rewrite IH. naive_solver.
Qed.

Lemma find_Some m k i :
  find m k = Some i -> (∃ v, m !! i = Some (k, v)) /\ k ∉ (take i m).*1.
Proof.
  revert i. induction m as [|[k' v'] m IH]; intros i; simpl; [done|].
  case_decide as Hk.
  - intros [= <-]. subst. split; [by eexists|]. apply not_elem_of_nil.
  - intros (j & Hj & ->)%fmap_Some. destruct (IH j Hj) as [Hl Hn].
    split; [done|]. simpl. rewrite elem_of_cons. naive_solver.
Qed.

Lemma find_first_val m k :
  match find m k with Some i => snd <$> m !! i | None => None end = first_val m k.
Proof.
  induction m as [|[k' v'] m IH]; simpl; [done|].
  case_decide; [done|].
  destruct (find m k) as [i|]; simpl; [|done].
  exact IH.
Qed.

Lemma getitem_first_val m k :
  getitem m k = (match first_val m k with Some v => ROk v | None => RErr KeyError end, m).
Proof.
  rewrite <- find_first_val. unfold getitem, Map.
  repeat case_match; simplify_eq/=; done.
Qed.

Lemma first_val_None_iff m k : first_val m k = None <-> find m k = None.
Proof.
  induction m as [|[k' v'] m IH]; simpl; [done|].
  case_decide; [done|]. by rewrite fmap_None.
Qed.

Lemma contains_key_iff m k : contains_key m k = true <-> k ∈ m.*1.
Proof.
  unfold contains_key. destruct (find m k) eqn:Hf.
  - split; [|done]. intros _. destruct (find_Some _ _ _ Hf) as [[v Hv] _].
    apply list_elem_of_lookup. exists n. by rewrite list_lookup_fmap, Hv.
  - apply find_None_iff in Hf. naive_solver.
Qed.

Lemma first_val_not_in m k : k ∉ m.*1 -> first_val m k = None.
Proof. intros Hn. by apply first_val_None_iff, find_None_iff. Qed.

Lemma first_val_insert_at_ne m p k k' v :
  k ≠ k' -> first_val (insert_at p (k, v) m) k' = first_val m k'.
Proof.
  unfold insert_at. intros Hne. revert p.
  induction m as [|[k1 v1] m IH]; intros [|p]; simpl;
    repeat case_decide; subst; try done.
Qed.

Lemma first_val_insert_at_eq m p k v :
  k ∉ m.*1 -> first_val (insert_at p (k, v) m) k = Some v.
Proof.
  unfold insert_at. revert p.
  induction m as [|[k1 v1] m IH]; intros [|p] Hn; simpl in *;
    repeat case_decide; subst; try done.
  - exfalso. apply Hn. by left.
  - apply IH. intros Hin. apply Hn. by right.
Qed.

Lemma first_val_erase_at_ne m i k k' v :
  m !! i = Some (k, v) -> k ≠ k' -> first_val (erase_at i m) k' = first_val m k'.
Proof.
  unfold erase_at. revert i.
  induction m as [|[k1 v1] m IH]; intros [|i] Hi Hne; simpl in *; try done.
  - injection Hi as -> ->. rewrite drop_0. by case_decide.
  - case_decide; [done|]. by eapply IH.
Qed.

Lemma first_val_assign_at_ne m i k k' v w :
  m !! i = Some (k, w) -> k ≠ k' -> first_val (assign_at i v m) k' = first_val m k'.
Proof.
  revert i.
  induction m as [|[k1 v1] m IH]; intros [|i] Hi Hne; simpl in *; try done.
  - injection Hi as -> ->. by case_decide.
  - case_decide; [done|]. by eapply IH.
Qed.

Lemma first_val_assign_at_find m k i v :
  find m k = Some i -> first_val (assign_at i v m) k = Some v.
Proof.
  revert i. induction m as [|[k1 v1] m IH]; intros i; simpl; [done|].
  case_decide as Hk.
  - intros [= <-]. simpl. by case_decide.
  - intros (j & Hj & ->)%fmap_Some. simpl. case_decide; [done|]. by apply IH.
Qed.

Lemma assign_at_insert_at m p k v w :
  assign_at (min p (length m)) v (insert_at p (k, w) m) = insert_at p (k, v) m.
Proof.
  unfold insert_at. revert p.
  induction m as [|[k1 v1] m IH]; intros [|p]; simpl; try done.
  f_equal. apply IH.
Qed.

Lemma length_insert_at m p e : length (insert_at p e m) = S (length m).
Proof.
  unfold insert_at. rewrite length_app; simpl; rewrite length_take, length_drop. lia.
Qed.

Lemma length_assign_at m i v : length (assign_at i v m) = length m.
Proof.
  revert i. induction m as [|[k1 v1] m IH]; intros [|i]; simpl; auto.
Qed.

Lemma length_erase_at m i e : m !! i = Some e -> length (erase_at i m) = length m - 1.
Proof.
  intros Hi. unfold erase_at. rewrite <- delete_take_drop.
  apply length_delete. by eexists.
Qed.

Lemma keys_insert_at m p k v :
  (insert_at p (k, v) m).*1 = take p m.*1 ++ k :: drop p m.*1.
Proof. unfold insert_at. by rewrite fmap_app, fmap_cons, fmap_take, fmap_drop. Qed.

Lemma keys_assign_at m i v : (assign_at i v m).*1 = m.*1.
Proof.
  revert i. induction m as [|[k1 v1] m IH]; intros [|i]; simpl; f_equal; auto.
Qed.

Lemma keys_erase_at m i : (erase_at i m).*1 = delete i m.*1.
Proof.
  unfold erase_at. by rewrite delete_take_drop, fmap_app, fmap_take, fmap_drop.
Qed.

Lemma wf_insert_at m p k v : wf m -> k ∉ m.*1 -> wf (insert_at p (k, v) m).
Proof.
  unfold wf. intros Hnd Hn. rewrite keys_insert_at.
  rewrite <- Permutation_middle. constructor.
  - by rewrite take_drop.
  - by rewrite take_drop.
Qed.

Lemma wf_assign_at m i v : wf m -> wf (assign_at i v m).
Proof. unfold wf. by rewrite keys_assign_at. Qed.

Lemma wf_erase_at m i : wf m -> wf (erase_at i m).
Proof.
  unfold wf. rewrite keys_erase_at. intros Hnd.
  eapply sublist_NoDup; [done|apply sublist_delete].
Qed.

Lemma erase_at_removes m i k v :
  wf m -> m !! i = Some (k, v) -> k ∉ (erase_at i m).*1.
Proof.
  unfold wf. intros Hnd Hi. rewrite keys_erase_at, delete_take_drop.
  assert (Hk : m.*1 !! i = Some k) by (by rewrite list_lookup_fmap, Hi).
  rewrite <- (take_drop_middle _ _ _ Hk) in Hnd.
  rewrite <- Permutation_middle in Hnd. by inversion Hnd.
Qed.

End ContainerFacts.

(* ------------------------------------------------------------------ *)
(** ** [__setitem__] and [__delitem__] *)

Section UpdateFacts.
Context {K V : Type} `{EqDecision K} `{NativeMap K V}.
Implicit Types (m : list (K * V)) (k : K) (v : V).

Ltac unfold_set := unfold setitem, subscript, emplace.

Lemma contains_key_first_val m k :
  contains_key m k = match first_val m k with Some _ => true | None => false end.
Proof.
  unfold contains_key. destruct (first_val m k) eqn:E.
  - destruct (find m k) eqn:F; [done|]. by apply first_val_None_iff in F; congruence.
  - by apply first_val_None_iff in E as ->.
Qed.

Lemma elem_of_keys m k : k ∈ m.*1 <-> ∃ v, (k, v) ∈ m.
Proof.
  rewrite list_elem_of_fmap. split.
  - intros ([k' v] & -> & Hin). by exists v.
  - intros [v Hin]. by exists (k, v).
Qed.

Lemma setitem_first_val_eq s m k v :
  wf m -> first_val (setitem s m k v) k = Some v.
Proof.
  intros Hwf. destruct s; unfold_set; destruct (find m k) as [i|] eqn:Hf.
  - by apply first_val_assign_at_find.
  - rewrite assign_at_insert_at. by apply first_val_insert_at_eq, find_None_iff.
  - destruct (find_Some _ _ _ Hf) as [[w Hw] _].
    rewrite (proj2 (find_None_iff _ _) (erase_at_removes _ _ _ _ Hwf Hw)); simpl.
    apply first_val_insert_at_eq, (erase_at_removes _ _ _ _ Hwf Hw).
  - by apply first_val_insert_at_eq, find_None_iff.
Qed.

Lemma setitem_length s m k v :
  wf m ->
  length (setitem s m k v) = if contains_key m k then length m else S (length m).
Proof.
  intros Hwf. unfold contains_key.
  destruct s; unfold_set; destruct (find m k) as [i|] eqn:Hf.
  - apply length_assign_at.
  - by rewrite assign_at_insert_at, length_insert_at.
  - destruct (find_Some _ _ _ Hf) as [[w Hw] _].
    rewrite (proj2 (find_None_iff _ _) (erase_at_removes _ _ _ _ Hwf Hw)); simpl.
    rewrite length_insert_at, (length_erase_at _ _ _ Hw).
    apply lookup_lt_Some in Hw. lia.
  - apply length_insert_at.
Qed.

Lemma setitem_wf s m k v : wf m -> wf (setitem s m k v).
Proof.
  intros Hwf. destruct s; unfold_set; destruct (find m k) as [i|] eqn:Hf.
  - by apply wf_assign_at.
  - rewrite assign_at_insert_at. by apply wf_insert_at, find_None_iff.
  - destruct (find_Some _ _ _ Hf) as [[w Hw] _].
    rewrite (proj2 (find_None_iff _ _) (erase_at_removes _ _ _ _ Hwf Hw)); simpl.
    apply wf_insert_at; [by apply wf_erase_at|]. by eapply erase_at_removes.
  - by apply wf_insert_at, find_None_iff.
Qed.

Lemma setitem_first_val_ne s m k k' v :
  k ≠ k' -> first_val (setitem s m k v) k' = first_val m k'.
Proof.
  intros Hne. destruct s; unfold_set; destruct (find m k) as [i|] eqn:Hf.
  - destruct (find_Some _ _ _ Hf) as [[w Hw] _].
    by eapply first_val_assign_at_ne.
  - rewrite assign_at_insert_at. by apply first_val_insert_at_ne.
  - destruct (find_Some _ _ _ Hf) as [[w Hw] _].
    destruct (find (erase_at i m) k) eqn:Hf'; simpl.
    + by eapply first_val_erase_at_ne.
    + rewrite first_val_insert_at_ne by done. by eapply first_val_erase_at_ne.
  - by apply first_val_insert_at_ne.
Qed.

Lemma delitem_first_val_ne m k k' :
  k ≠ k' -> first_val (delitem m k).2 k' = first_val m k'.
Proof.
  intros Hne. unfold delitem. destruct (find m k) as [i|] eqn:Hf; simpl; [|done].
  destruct (find_Some _ _ _ Hf) as [[w Hw] _]. by eapply first_val_erase_at_ne.
Qed.

Lemma filter_key_not_in m k : k ∉ m.*1 -> filter (fun e => e.1 = k) m = [].
Proof.
  induction m as [|[k1 v1] m IH]; intros Hn; simpl in *; [done|].
  rewrite filter_cons. case_decide; simpl in *; subst.
  - exfalso. apply Hn. by left.
  - apply IH. intros Hin. apply Hn. by right.
Qed.

Lemma filter_key_unique m k :
  wf m -> k ∈ m.*1 -> length (filter (fun e => e.1 = k) m) = 1.
Proof.
  unfold wf. induction m as [|[k1 v1] m IH]; intros Hnd Hin; simpl in *.
  - by apply not_elem_of_nil in Hin.
  - apply NoDup_cons in Hnd as [Hn Hnd]. rewrite filter_cons.
    case_decide; simpl in *; subst.
    + by rewrite filter_key_not_in.
    + apply IH; [done|]. apply elem_of_cons in Hin as [->|]; [done|done].
Qed.

End UpdateFacts.

(* ------------------------------------------------------------------ *)
(** ** The object heap: keep-alive invariant *)

Section HeapFacts.
Context {K V : Type} `{EqDecision K} `{NativeMap K V}.
Implicit Types (st : @state K V).

Lemma reachable_mono st st' o :
  (∀ x, x ∈ roots st' -> x ∈ roots st) ->
  (∀ a b, (a, b) ∈ edges st' -> (a, b) ∈ edges st) ->
  reachable st' o -> reachable st o.
Proof.
  intros Hr He. induction 1 as [r Hin|n p _ IH Hnp].
  - constructor. by apply Hr.
  - eapply reach_tie; [exact IH|]. by apply He.
Qed.

Lemma reachable_alloc st ob tgt o :
  heap_inv st -> (∀ t, tgt = Some t -> reachable st t) ->
  reachable (alloc ob tgt st).2 o -> o = next st \/ reachable st o.
Proof.
  intros (Hr & He & _ & _) Ht. induction 1 as [r Hin|n p _ IH Hnp]; simpl in *.
  - apply elem_of_cons in Hin as [->|Hin]; [by left|]. right. by constructor.
  - assert (Hold : (n, p) ∈ edges st -> reachable st p).
    { intros Hin. destruct IH as [->|IH]; [apply He in Hin; lia|].
      by eapply reach_tie. }
    destruct tgt as [t|]; [|right; by apply Hold].
    apply elem_of_cons in Hnp as [[= -> ->]|Hnp]; [|right; by apply Hold].
    right. by apply Ht.
Qed.

Lemma obj_ok_alloc st ob tgt o ob' :
  heap_inv st -> obj_ok st o ob' -> obj_ok (alloc ob tgt st).2 o ob'.
Proof.
  intros (_ & _ & Hh & _).
  assert (Hsub : ∀ e, e ∈ edges st -> e ∈ edges (alloc ob tgt st).2).
  { intros e Hin. simpl. destruct tgt; [by apply elem_of_cons; right|done]. }
  assert (Hlk : ∀ x ob'', heap st !! x = Some ob'' ->
                heap (alloc ob tgt st).2 !! x = Some ob'').
  { intros x ob'' Hx. simpl. rewrite lookup_insert_ne; [done|].
    apply Hh in Hx. lia. }
  destruct ob' as [m|vk l|fl s]; simpl; [done| |].
  - intros [He [m Hm]]. split; [by apply Hsub|]. exists m. by apply Hlk.
  - intros [He [[m Hm]|(vk & l & Hv)]]; split; try by apply Hsub.
    + left. exists m. by apply Hlk.
    + right. exists vk, l. by apply Hlk.
Qed.

Lemma inv_alloc st ob tgt :
  heap_inv st -> (∀ t, tgt = Some t -> reachable st t) ->
  obj_ok (alloc ob tgt st).2 (next st) ob ->
  heap_inv (alloc ob tgt st).2.
Proof.
  intros Hinv Ht Hok. pose proof Hinv as (Hr & He & Hh & Hreach).
  split_and!; simpl.
  - intros x Hx. apply elem_of_cons in Hx as [->|Hx]; [lia|]. apply Hr in Hx. lia.
  - intros a b Hab. destruct tgt as [t|]; [apply elem_of_cons in Hab as [[= -> ->]|Hab]|];
      try lia; apply He in Hab; lia.
  - intros x ob' Hx. rewrite lookup_insert in Hx. case_decide; [lia|].
    apply Hh in Hx. lia.
  - intros o Ho. destruct (reachable_alloc _ _ _ _ Hinv Ht Ho) as [->|Ho'].
    + exists ob. split; [apply lookup_insert_eq|exact Hok].
    + destruct (Hreach o Ho') as (ob' & Hob & Hok').
      exists ob'. split.
      * rewrite lookup_insert_ne; [done|]. apply Hh in Hob. lia.
      * by apply obj_ok_alloc.
Qed.

Lemma inv_py_view st vk l r st' :
  heap_inv st -> reachable st l -> py_view vk l st = Some (r, st') -> heap_inv st'.
Proof.
  intros Hinv Hl. unfold py_view.
  destruct (heap st !! l) as [[m| |]|] eqn:Hm; try discriminate.
  intros [= _ <-]. apply (inv_alloc st (ViewObj vk l) (Some l)); [done|by intros t [= <-]|].
  simpl. split; [by apply elem_of_cons; left|].
  exists m. rewrite lookup_insert_ne; [done|].
  destruct Hinv as (_ & _ & Hh & _). apply Hh in Hm. lia.
Qed.

Lemma inv_py_iter st l r st' :
  heap_inv st -> reachable st l -> py_iter l st = Some (r, st') -> heap_inv st'.
Proof.
  intros Hinv Hl. unfold py_iter.
  assert (Hne : ∀ ob, heap st !! l = Some ob -> next st ≠ l).
  { intros ob Hob. destruct Hinv as (_ & _ & Hh & _). apply Hh in Hob. lia. }
  destruct (heap st !! l) as [[m|vk l'|]|] eqn:Hm; try discriminate;
    intros [= _ <-].
  - apply (inv_alloc st (IterObj KeyIter l) (Some l)); [done|by intros t [= <-]|].
    simpl. split; [by apply elem_of_cons; left|].
    rewrite lookup_insert_ne by (by eapply Hne). left. by exists m.
  - apply (inv_alloc st (IterObj (flavour_of vk) l) (Some l)); [done|by intros t [= <-]|].
    simpl. split; [by apply elem_of_cons; left|].
    rewrite lookup_insert_ne by (by eapply Hne). right. by exists vk, l'.
Qed.

Lemma inv_set_map st l m m' :
  heap_inv st -> heap st !! l = Some (MapObj m) -> heap_inv (set_map l m' st).
Proof.
  intros (Hr & He & Hh & Hreach) Hl. split_and!; simpl; try done.
  - intros x ob Hx. rewrite lookup_insert in Hx. case_decide; subst; [|by eapply Hh].
    by eapply Hh.
  - intros o Ho. apply (reachable_mono st) in Ho; [|done|done].
    destruct (Hreach o Ho) as (ob & Hob & Hok).
    rewrite lookup_insert. case_decide as Hol; subst.
    + by exists (MapObj m').
    + exists ob. split; [done|].
      destruct ob as [m0|vk t|fl s]; simpl in *; [done| |].
      * destruct Hok as [Hte [m1 Hm1]]. split; [done|].
        rewrite lookup_insert. case_decide; [by eexists|by eexists].
      * destruct Hok as [Hte [[m1 Hm1]|(vk & t & Ht)]]; split; try done.
        -- left. rewrite lookup_insert. case_decide; by eexists.
        -- right. rewrite lookup_insert. case_decide; subst; [congruence|].
           by exists vk, t.
Qed.

Lemma inv_drop st r : heap_inv st -> heap_inv (py_drop r st).
Proof.
  intros (Hr & He & Hh & Hreach). split_and!; simpl; try done.
  - intros x Hx. apply list_elem_of_filter in Hx as [_ Hx]. by apply Hr.
  - intros o Ho. apply (reachable_mono st) in Ho; [by apply Hreach|..|done].
    intros x Hx. simpl in Hx. by apply list_elem_of_filter in Hx as [_ Hx].
Qed.

Lemma inv_collect st x : heap_inv st -> ¬ reachable st x -> heap_inv (collect x st).
Proof.
  intros (Hr & He & Hh & Hreach) Hx. split_and!; simpl; try done.
  - intros a b Hab. apply list_elem_of_filter in Hab as [_ Hab]. by eapply He.
  - intros y ob Hy. rewrite lookup_delete in Hy. case_decide; [done|]. by eapply Hh.
  - intros o Ho. apply (reachable_mono st) in Ho; [|done|].
    2:{ intros a b Hab. simpl in Hab. by apply list_elem_of_filter in Hab as [_ Hab]. }
    assert (Hox : o ≠ x) by (intros ->; contradiction).
    destruct (Hreach o Ho) as (ob & Hob & Hok).
    exists ob. split; [by rewrite lookup_delete_ne by done|].
    assert (Hkeep : ∀ t, (o, t) ∈ edges st ->
               (o, t) ∈ edges (collect x st) /\ t ≠ x).
    { intros t Ht. split.
      - simpl. apply list_elem_of_filter. by split.
      - intros ->. apply Hx. by eapply reach_tie. }
    destruct ob as [m0|vk t|fl s]; simpl in *; [done| |].
    + destruct Hok as [Hte [m1 Hm1]]. destruct (Hkeep t Hte) as [He' Htx].
      split; [done|]. exists m1. by rewrite lookup_delete_ne by done.
    + destruct Hok as [Hte Hs]. destruct (Hkeep s Hte) as [He' Hsx].
      split; [done|]. by rewrite lookup_delete_ne by done.
Qed.

Lemma reach_inv st : reach_st st -> heap_inv st.
Proof.
  induction 1 as [|st st' _ IH Hstep].
  - split_and!; simpl; try done.
    + intros x Hx. by apply not_elem_of_nil in Hx.
    + intros a b Hab. by apply not_elem_of_nil in Hab.
    + intros o Ho. exfalso. induction Ho as [r Hin|]; [by apply not_elem_of_nil in Hin|done].
  - destruct Hstep as [st|st vk l r st' Hl Hv|st l r st' Hl Hi|st s l k v st' Hl Hs
                      |st l k r st' Hl Hd|st r|st x Hx].
    + apply (inv_alloc st (MapObj []) None); done.
    + by eapply inv_py_view.
    + by eapply inv_py_iter.
    + unfold py_setitem in Hs. destruct (heap st !! l) as [[m| |]|] eqn:Hm; try discriminate.
      injection Hs as <-. by eapply inv_set_map.
    + unfold py_delitem in Hd. destruct (heap st !! l) as [[m| |]|] eqn:Hm; try discriminate.
      destruct (delitem m k) as [r' m']. injection Hd as _ <-. by eapply inv_set_map.
    + by apply inv_drop.
    + by apply inv_collect.
Qed.

End HeapFacts.

(* ------------------------------------------------------------------ *)
(** ** Properties of the bindings *)

Section Claims.
Context {K V : Type} `{EqDecision K} `{NativeMap K V}.
Context {Obj : Type} `{KeyCaster Obj K}.
Implicit Types (m : list (K * V)) (k : K) (v : V).

(** C1: [__contains__] is total.  A Python value of the native key type
    yields [True] exactly when an entry with that key exists; any other
    value yields [False] through the [handle] fallback, never a
    [TypeError]; [KeyView.__contains__] gives the same answers. *)
Theorem contains_total m (o : Obj) :
  (∃ b, contains m o = ROk b) /\
  (∀ k, cast_key o = Some k -> (contains m o = ROk true <-> ∃ v, (k, v) ∈ m)) /\
  (cast_key o = None -> contains m o = ROk false) /\
  (∀ st vo, view_map st vo = Some (KeysView, m) ->
            keyview_contains st vo o = Some (contains m o)).
Proof.
  unfold contains, dispatch, map_contains_overloads.
  split_and!.
  - destruct (cast_key o); simpl; by eexists.
  - intros k ->. simpl. rewrite <- elem_of_keys, <- contains_key_iff.
    split; [by intros [= ->]|by intros ->].
  - by intros ->.
  - intros st vo Hv. unfold keyview_contains. rewrite Hv. reflexivity.
Qed.

(** C2: after [__setitem__(k, v)], under either strategy, [__getitem__(k)]
    returns [v], [k] is contained, and the size grew by one exactly when
    [k] was new. *)
Theorem setitem_spec (s : strategy) m k v :
  wf m ->
  getitem (setitem s m k v) k = (ROk v, setitem s m k v) /\
  contains_key (setitem s m k v) k = true /\
  len (setitem s m k v) = (if contains_key m k then len m else S (len m)).
Proof.
  intros Hwf. split_and!.
  - by rewrite getitem_first_val, setitem_first_val_eq.
  - by rewrite contains_key_first_val, setitem_first_val_eq.
  - apply setitem_length, Hwf.
Qed.

(** C3: for an absent key, [__getitem__] and [__delitem__] raise
    [KeyError] and leave the map unchanged. *)
Theorem missing_key_raises m k :
  (¬ ∃ v, (k, v) ∈ m) ->
  getitem m k = (RErr KeyError, m) /\ delitem m k = (RErr KeyError, m).
Proof.
  intros Hn. rewrite <- elem_of_keys in Hn.
  pose proof (proj2 (find_None_iff m k) Hn) as Hf.
  unfold getitem, delitem. by rewrite Hf.
Qed.

(** C4: with a [Value] that is copy-constructible but not copy-assignable,
    [__setitem__] uses erase-and-reconstruct; two calls on one key leave a
    single entry holding the second value, the size is unchanged by the
    second call, and the second call finds the key on [emplace], erases
    that entry and emplaces again. *)
Theorem erase_reconstruct_twice (c : value_caps) m k v1 v2 :
  copy_assignable c = false -> copy_constructible c = true -> wf m ->
  bound_setitem c = Some (setitem EraseReconstruct) /\
  let m1 := setitem EraseReconstruct m k v1 in
  let m2 := setitem EraseReconstruct m1 k v2 in
  length (filter (fun e => e.1 = k) m2) = 1 /\
  getitem m2 k = (ROk v2, m2) /\
  len m2 = len m1 /\
  ∃ i, emplace m1 k v2 = (m1, (i, false)) /\
       find (erase_at i m1) k = None /\
       m2 = (emplace (erase_at i m1) k v2).1.
Proof.
  intros Ha Hc Hwf. split.
  { unfold bound_setitem, select_strategy. by rewrite Ha, Hc. }
  cbv zeta. set (m1 := setitem EraseReconstruct m k v1).
  assert (Hwf1 : wf m1) by apply setitem_wf, Hwf.
  assert (Hin1 : contains_key m1 k = true).
  { unfold m1. by rewrite contains_key_first_val, setitem_first_val_eq. }
  destruct (find m1 k) as [i|] eqn:Hf; [|by unfold contains_key in Hin1; rewrite Hf in Hin1].
  destruct (find_Some _ _ _ Hf) as [[w Hw] _].
  assert (Hemp : emplace m1 k v2 = (m1, (i, false))) by (unfold emplace; by rewrite Hf).
  assert (Hm2 : setitem EraseReconstruct m1 k v2 = (emplace (erase_at i m1) k v2).1).
  { unfold setitem at 1. by rewrite Hemp. }
  split_and!.
  - apply filter_key_unique; [by apply setitem_wf|].
    apply contains_key_iff. by rewrite contains_key_first_val, setitem_first_val_eq.
  - by rewrite getitem_first_val, setitem_first_val_eq.
  - unfold len, size. rewrite setitem_length by done. by rewrite Hin1.
  - exists i. split_and!; [done| |done].
    apply find_None_iff. by eapply erase_at_removes.
Qed.

(** C5: [__delitem__] of a present key succeeds, the key is no longer
    contained and the size drops by one. *)
Theorem delitem_spec m k :
  wf m -> (∃ v, (k, v) ∈ m) ->
  ∃ m', delitem m k = (ROk tt, m') /\ contains_key m' k = false /\ len m' = len m - 1.
Proof.
  intros Hwf Hin. rewrite <- elem_of_keys in Hin.
  destruct (find m k) as [i|] eqn:Hf; [|by apply find_None_iff in Hf].
  destruct (find_Some _ _ _ Hf) as [[w Hw] _].
  exists (erase_at i m). unfold delitem. rewrite Hf. split_and!; [done| |].
  - unfold contains_key. rewrite (proj2 (find_None_iff _ _) (erase_at_removes _ _ _ _ Hwf Hw)).
    done.
  - apply (length_erase_at _ _ _ Hw).
Qed.

(** C6: with [n] entries, the key iteration ([__iter__] of the map and of
    [KeyView]) yields [n] distinct keys in the container's order, and the
    keys of the item iteration are that same sequence. *)
Theorem iteration_keys_items m :
  wf m ->
  length (map_iter m) = len m /\ NoDup (map_iter m) /\ map_iter m = m.*1 /\
  iter_keys m = map_iter m /\ (iter_items m).*1 = map_iter m /\
  (∀ st vo, view_map st vo = Some (KeysView, m) ->
            view_iter st vo = Some (EKey <$> map_iter m)) /\
  (∀ st vo, view_map st vo = Some (ItemsView, m) ->
            view_iter st vo = Some (EItem <$> iter_items m)).
Proof.
  intros Hwf. unfold map_iter, iter_keys, iter_items, view_iter.
  split_and!; try done.
  - unfold len, size. apply length_fmap.
  - intros st vo ->. done.
  - intros st vo ->. done.
Qed.

(** C7: [__bool__] is [__len__() > 0]. *)
Theorem nonempty_iff_len m : is_nonempty m = (0 <? len m).
Proof. by destruct m. Qed.

(** C8: views are live: in every reachable heap, a view held by Python
    answers [__len__] and [__iter__] from the map's contents at the time of
    the call. *)
Theorem views_are_live (st : @state K V) vo vk l :
  reach_st st -> reachable st vo -> heap st !! vo = Some (ViewObj vk l) ->
  ∃ m, heap st !! l = Some (MapObj m) /\
       view_len st vo = Some (len m) /\ view_iter st vo = Some (project vk m).
Proof.
  intros Hst Hvo Hv. destruct (reach_inv st Hst) as (_ & _ & _ & Hreach).
  destruct (Hreach vo Hvo) as (ob & Hob & Hok). rewrite Hv in Hob. injection Hob as <-.
  destruct Hok as [_ [m Hm]]. exists m.
  unfold view_len, view_iter, view_map. by rewrite Hv, Hm.
Qed.

(** C9: [__setitem__(k, v)] and [__delitem__(k)] leave every other key's
    entry as [__getitem__] and [__contains__] see it. *)
Theorem update_frame (s : strategy) m k k' v :
  k ≠ k' ->
  (getitem (setitem s m k v) k').1 = (getitem m k').1 /\
  contains_key (setitem s m k v) k' = contains_key m k' /\
  (getitem (delitem m k).2 k').1 = (getitem m k').1 /\
  contains_key (delitem m k).2 k' = contains_key m k'.
Proof.
  intros Hne. rewrite !getitem_first_val, !contains_key_first_val.
  rewrite setitem_first_val_ne, delitem_first_val_ne by done.
  done.
Qed.

(** C10: every view and iterator Python can still reach is tied, through a
    chain of keep-alive ties, to its map, and that map is reachable and
    not destroyed. *)
Theorem derived_keeps_map_alive (st : @state K V) o ob :
  reach_st st -> reachable st o -> heap st !! o = Some ob -> (∀ m, ob ≠ MapObj m) ->
  ∃ l m, owner_map st ob = Some l /\ ties st o l /\ reachable st l /\
         heap st !! l = Some (MapObj m).
Proof.
  intros Hst Ho Hob Hnm. destruct (reach_inv st Hst) as (_ & _ & _ & Hreach).
  destruct (Hreach o Ho) as (ob' & Hob' & Hok). rewrite Hob in Hob'. injection Hob' as <-.
  destruct ob as [m0|vk l|fl s]; simpl in Hok.
  - by destruct (Hnm m0).
  - destruct Hok as [He [m Hm]]. exists l, m. simpl. split_and!; try done.
    + eapply rtc_l; [exact He|apply rtc_refl].
    + by eapply reach_tie.
  - destruct Hok as [He [[m Hm]|(vk & l & Hv)]].
    + exists s, m. simpl. rewrite Hm. split_and!; try done.
      * eapply rtc_l; [exact He|apply rtc_refl].
      * by eapply reach_tie.
    + assert (Hs : reachable st s) by (by eapply reach_tie).
      destruct (Hreach s Hs) as (ob2 & Hob2 & Hok2). rewrite Hv in Hob2.
      injection Hob2 as <-. destruct Hok2 as [He2 [m Hm]].
      exists l, m. simpl. rewrite Hv. split_and!; try done.
      * eapply rtc_l; [exact He|]. eapply rtc_l; [exact He2|apply rtc_refl].
      * by eapply reach_tie.
Qed.

End Claims.

(* ------------------------------------------------------------------ *)
(** ** Concrete runs *)

Ltac by_eval := apply (bool_decide_unpack _); vm_compute; reflexivity.

Lemma sample_map_wf : wf sample_map.
Proof. unfold wf. by_eval. Qed.

(** The Python session: [m = Map(); m[1] = 10; v = m.keys(); m[7] = 70;
    it = iter(v)]. *)
Lemma session3_reach : reach_st session3.
Proof.
  apply (reach_step session2 session3).
  - apply (reach_step session1 session2).
    + apply (reach_step session0 session1).
      * apply (reach_step init_state session0); [constructor|apply step_new].
      * apply (step_setitem session0 AssignInPlace 0 1 10);
          [apply reach_root; by_eval|reflexivity].
    + apply (step_view session1 KeysView 0 1); [apply reach_root; by_eval|reflexivity].
  - apply (step_setitem session2 EraseReconstruct 0 7 70);
      [apply reach_root; by_eval|reflexivity].
Qed.

Lemma session4_reach : reach_st session4.
Proof.
  apply (reach_step session3 session4); [apply session3_reach|].
  apply (step_iter session3 1 2); [apply reach_root; by_eval|reflexivity].
Qed.

(** The key view taken before [m[7] = 70] shows the new key afterwards. *)
Example view_sees_later_insert :
  view_iter session2 1 = Some [EKey 1] /\ view_iter session3 1 = Some [EKey 1; EKey 7].
Proof. split; vm_compute; reflexivity. Qed.

Lemma setitem_spec_witness :
  wf sample_map /\ len (setitem AssignInPlace sample_map 4 40) = 4 /\
  len (setitem EraseReconstruct sample_map 3 33) = 3.
Proof.
  split_and!; [apply sample_map_wf| |].
  - destruct (setitem_spec AssignInPlace sample_map 4 40 sample_map_wf) as (_ & _ & Hl).
    rewrite Hl. vm_compute. reflexivity.
  - destruct (setitem_spec EraseReconstruct sample_map 3 33 sample_map_wf) as (_ & _ & Hl).
    rewrite Hl. vm_compute. reflexivity.
Defined.

Lemma missing_key_raises_witness :
  (¬ ∃ v, (4, v) ∈ sample_map) /\ delitem sample_map 4 = (RErr KeyError, sample_map).
Proof.
  assert (Hn : ¬ ∃ v, (4, v) ∈ sample_map).
  { intros [v Hv]. apply list_elem_of_In in Hv. simpl in Hv.
    destruct Hv as [Hv|[Hv|[Hv|[]]]]; discriminate. }
  split; [exact Hn|]. apply (missing_key_raises sample_map 4 Hn).
Defined.

Lemma erase_reconstruct_twice_witness :
  copy_assignable construct_only = false /\ copy_constructible construct_only = true /\
  wf sample_map /\
  len (setitem EraseReconstruct (setitem EraseReconstruct sample_map 3 31) 3 32) = 3.
Proof.
  split_and!; [reflexivity|reflexivity|apply sample_map_wf|].
  destruct (erase_reconstruct_twice construct_only sample_map 3 31 32
              eq_refl eq_refl sample_map_wf) as (_ & _ & _ & Hl & _).
  rewrite Hl. vm_compute. reflexivity.
Defined.

Lemma delitem_spec_witness :
  wf sample_map /\ (∃ v, (3, v) ∈ sample_map) /\
  ∃ m', delitem sample_map 3 = (ROk tt, m') /\ len m' = 2.
Proof.
  assert (Hin : ∃ v, (3, v) ∈ sample_map) by (exists 30; by_eval).
  split_and!; [apply sample_map_wf|exact Hin|].
  destruct (delitem_spec sample_map 3 sample_map_wf Hin) as (m' & Hd & _ & Hl).
  exists m'. split; [exact Hd|]. rewrite Hl. vm_compute. reflexivity.
Defined.

Lemma iteration_keys_items_witness :
  wf sample_map /\ map_iter sample_map = [1; 3; 5] /\ NoDup (map_iter sample_map).
Proof.
  destruct (iteration_keys_items sample_map sample_map_wf) as (_ & Hnd & Hk & _).
  split_and!; [apply sample_map_wf|rewrite Hk; reflexivity|exact Hnd].
Defined.

Lemma views_are_live_witness :
  reach_st session3 /\ reachable session3 1 /\
  heap session3 !! 1 = Some (ViewObj KeysView 0) /\
  view_len session3 1 = Some 2.
Proof.
  assert (Hr : reachable session3 1) by (apply reach_root; by_eval).
  assert (Hv : heap session3 !! 1 = Some (ViewObj KeysView 0)) by (vm_compute; reflexivity).
  split_and!; [apply session3_reach|exact Hr|exact Hv|].
  destruct (views_are_live session3 1 KeysView 0 session3_reach Hr Hv) as (m & Hm & Hl & _).
  rewrite Hl. vm_compute in Hm. injection Hm as <-. reflexivity.
Defined.

Lemma update_frame_witness :
  3 ≠ 5 /\ (getitem (setitem EraseReconstruct sample_map 3 33) 5).1 = ROk 50.
Proof.
  assert (Hne : 3 ≠ 5) by lia.
  split; [exact Hne|].
  destruct (update_frame EraseReconstruct sample_map 3 5 33 Hne) as (Hg & _).
  rewrite Hg. reflexivity.
Defined.

Lemma derived_keeps_map_alive_witness :
  reach_st session4 /\ reachable session4 2 /\
  heap session4 !! 2 = Some (IterObj KeyIter 1) /\ ties session4 2 0.
Proof.
  assert (Hr : reachable session4 2) by (apply reach_root; by_eval).
  assert (Hv : heap session4 !! 2 = Some (IterObj KeyIter 1)) by (vm_compute; reflexivity).
  split_and!; [apply session4_reach|exact Hr|exact Hv|].
  destruct (derived_keeps_map_alive session4 2 (IterObj KeyIter 1) session4_reach Hr Hv
              (fun m => ltac:(discriminate))) as (l & m & Ho & Ht & _).
  vm_compute in Ho. injection Ho as <-. exact Ht.
Defined.

Lemma contains_total_witness :
  contains sample_map (PInt 3) = ROk true /\ contains sample_map PNone = ROk false.
Proof.
  destruct (contains_total sample_map (PInt 3)) as (_ & Hk & _ & _).
  destruct (contains_total sample_map PNone) as (_ & _ & Hn & _).
  split; [apply (Hk 3 eq_refl); exists 30; by_eval|exact (Hn eq_refl)].
Defined.

(* ------------------------------------------------------------------ *)
(** ** Further properties of the container bindings *)

Section MoreContainer.
Context {K V : Type} `{EqDecision K} `{NativeMap K V}.
Context {Obj : Type} `{KeyCaster Obj K}.
Implicit Types (m : list (K * V)) (k : K) (v : V).

Lemma find_insert_at_new m p k v :
  k ∉ m.*1 -> find (insert_at p (k, v) m) k = Some (min p (length m)).
Proof.
  unfold insert_at. revert p.
  induction m as [|[k1 v1] m IH]; intros [|p] Hn; simpl in *;
    repeat case_decide; subst; try done.
  - exfalso. apply Hn. by left.
  - rewrite IH; [done|]. intros Hin. apply Hn. by right.
Qed.

Lemma erase_at_insert_at m p e : erase_at (min p (length m)) (insert_at p e m) = m.
Proof.
  unfold erase_at, insert_at. revert p.
  induction m as [|e1 m IH]; intros [|p]; simpl; try done.
  f_equal. apply IH.
Qed.

Lemma find_assign_at m i k v : find (assign_at i v m) k = find m k.
Proof.
  revert i. induction m as [|[k1 v1] m IH]; intros [|i]; simpl; try done.
  by rewrite IH.
Qed.

Lemma assign_at_assign_at m i v1 v2 : assign_at i v2 (assign_at i v1 m) = assign_at i v2 m.
Proof.
  revert i. induction m as [|[k1 w] m IH]; intros [|i]; simpl; try done.
  by rewrite IH.
Qed.

Lemma lookup_assign_at m i j v :
  assign_at i v m !! j = if decide (j = i) then (fun e => (e.1, v)) <$> m !! i else m !! j.
Proof.
  revert i j. induction m as [|[k1 w] m IH]; intros [|i] [|j]; simpl;
    try rewrite IH; repeat case_decide; simplify_eq; try lia; done.
Qed.

Lemma setitem_absent s m k v :
  find m k = None -> setitem s m k v = insert_at (place m k) (k, v) m.
Proof.
  intros Hf. destruct s; unfold setitem, subscript, emplace; rewrite Hf; [|done].
  apply assign_at_insert_at.
Qed.

Lemma setitem_assign_present m k v i :
  find m k = Some i -> setitem AssignInPlace m k v = assign_at i v m.
Proof. intros Hf. unfold setitem, subscript. by rewrite Hf. Qed.

Lemma setitem_er_present m k v i :
  wf m -> find m k = Some i ->
  setitem EraseReconstruct m k v =
    insert_at (place (erase_at i m) k) (k, v) (erase_at i m).
Proof.
  intros Hwf Hf. destruct (find_Some _ _ _ Hf) as [[w Hw] _].
  unfold setitem, emplace at 1. rewrite Hf.
  unfold emplace. by rewrite (proj2 (find_None_iff _ _) (erase_at_removes _ _ _ _ Hwf Hw)).
Qed.


(** The two strategies are indistinguishable through [__getitem__],
    [__contains__] and [__len__]; on a new key they build the same map. *)
Theorem strategies_agree m k v :
  wf m ->
  (∀ k', (getitem (setitem AssignInPlace m k v) k').1 =
         (getitem (setitem EraseReconstruct m k v) k').1) /\
  len (setitem AssignInPlace m k v) = len (setitem EraseReconstruct m k v) /\
  (contains_key m k = false ->
     setitem AssignInPlace m k v = setitem EraseReconstruct m k v).
Proof.
  intros Hwf. split_and!.
  - intros k'. rewrite !getitem_first_val.
    destruct (decide (k = k')) as [<-|Hne].
    + by rewrite !setitem_first_val_eq.
    + by rewrite !setitem_first_val_ne.
  - unfold len, size. by rewrite !setitem_length.
  - unfold contains_key. destruct (find m k) eqn:Hf; [done|].
    intros _. by rewrite !setitem_absent.
Qed.

(** Assign-in-place on a present key changes that entry's value only: the
    key sequence and every other entry stay where they are. *)
Theorem assign_in_place_keeps_order m k v i :
  find m k = Some i ->
  (setitem AssignInPlace m k v).*1 = m.*1 /\
  setitem AssignInPlace m k v !! i = Some (k, v) /\
  (∀ j, j ≠ i -> setitem AssignInPlace m k v !! j = m !! j).
Proof.
  intros Hf. rewrite (setitem_assign_present _ _ _ _ Hf).
  destruct (find_Some _ _ _ Hf) as [[w Hw] _].
  split_and!.
  - apply keys_assign_at.
  - rewrite lookup_assign_at. case_decide; [|done]. unfold Map in *. by rewrite Hw.
  - intros j Hj. rewrite lookup_assign_at. by case_decide.
Qed.

(** Last write wins: setting a key twice gives the same map as setting it
    once to the second value, under either strategy. *)
Theorem setitem_setitem s m k v1 v2 :
  wf m -> setitem s (setitem s m k v1) k v2 = setitem s m k v2.
Proof.
  intros Hwf. destruct (find m k) as [i|] eqn:Hf.
  - destruct (find_Some _ _ _ Hf) as [[w Hw] _]. destruct s.
    + rewrite (setitem_assign_present _ _ _ _ Hf).
      rewrite (setitem_assign_present _ _ _ i); [|by rewrite find_assign_at].
      by rewrite assign_at_assign_at, (setitem_assign_present _ _ _ _ Hf).
    + pose proof (erase_at_removes _ _ _ _ Hwf Hw) as Hn.
      rewrite (setitem_er_present _ _ _ _ Hwf Hf).
      rewrite (setitem_er_present _ _ _ (min (place (erase_at i m) k) (length (erase_at i m)))).
      * rewrite erase_at_insert_at. by rewrite (setitem_er_present _ _ _ _ Hwf Hf).
      * apply wf_insert_at; [by apply wf_erase_at|done].
      * by apply find_insert_at_new.
  - pose proof (proj1 (find_None_iff _ _) Hf) as Hn.
    rewrite (setitem_absent _ _ _ _ Hf). destruct s.
    + rewrite (setitem_assign_present _ _ _ (min (place m k) (length m)));
        [|by apply find_insert_at_new].
      rewrite assign_at_insert_at. by rewrite (setitem_absent _ _ _ _ Hf).
    + rewrite (setitem_er_present _ _ _ (min (place m k) (length m))).
      * rewrite erase_at_insert_at. by rewrite (setitem_absent _ _ _ _ Hf).
      * by apply wf_insert_at.
      * by apply find_insert_at_new.
Qed.


(** After [__delitem__(k)], whether it succeeded or raised, [__getitem__(k)]
    raises [KeyError]. *)
Theorem getitem_after_delitem m k :
  wf m -> getitem (delitem m k).2 k = (RErr KeyError, (delitem m k).2).
Proof.
  intros Hwf. unfold delitem. destruct (find m k) as [i|] eqn:Hf; simpl.
  - destruct (find_Some _ _ _ Hf) as [[w Hw] _].
    unfold getitem. by rewrite (proj2 (find_None_iff _ _) (erase_at_removes _ _ _ _ Hwf Hw)).
  - unfold getitem. by rewrite Hf.
Qed.

(** Keys stay unique under every mutating method. *)
Theorem mutations_keep_keys_unique s m k v :
  wf m -> wf (setitem s m k v) /\ wf (delitem m k).2.
Proof.
  intros Hwf. split; [by apply setitem_wf|].
  unfold delitem. destruct (find m k); simpl; [by apply wf_erase_at|done].
Qed.

(** [__contains__] answers [True] exactly when [__getitem__] would succeed. *)
Theorem contains_iff_getitem m (o : Obj) k :
  cast_key o = Some k ->
  (contains m o = ROk true <-> ∃ v, getitem m k = (ROk v, m)) /\
  (contains m o = ROk false <-> getitem m k = (RErr KeyError, m)).
Proof.
  intros Hc. unfold contains, dispatch, map_contains_overloads. rewrite Hc. simpl.
  rewrite getitem_first_val, contains_key_first_val.
  destruct (first_val m k); split; split; try naive_solver.
Qed.

(** A mutation applied through the reference returned by [__getitem__] is
    seen by the next [__getitem__] of that key; other keys and the key
    sequence are untouched. *)
Theorem getitem_reference_aliases m k i (f : V -> V) :
  getitem_ref m k = ROk i ->
  (∀ v, (getitem m k).1 = ROk v -> (getitem (update_through i f m) k).1 = ROk (f v)) /\
  (∀ k', k' ≠ k -> (getitem (update_through i f m) k').1 = (getitem m k').1) /\
  (update_through i f m).*1 = m.*1.
Proof.
  unfold getitem_ref. destruct (find m k) as [j|] eqn:Hf; [|done]. intros [= <-].
  assert (Hfv : ∀ k', first_val (update_through j f m) k' =
                 if decide (k' = k) then f <$> first_val m k else first_val m k').
  { clear -Hf. revert j Hf. induction m as [|[k1 v1] m IH]; intros j; simpl; [done|].
    case_decide as Hk; subst.
    - intros [= <-]. intros k'. simpl. repeat case_decide; subst; done.
    - intros (j' & Hj' & ->)%fmap_Some. intros k'. simpl.
      rewrite IH by done. repeat case_decide; subst; done. }
  split_and!.
  - intros v. rewrite !getitem_first_val, Hfv. case_decide; [|done].
    destruct (first_val m k); simpl; by intros [= ->].
  - intros k' Hne. rewrite !getitem_first_val, Hfv. by case_decide.
  - clear -m. revert j. induction m as [|[k1 v1] m IH]; intros [|j]; simpl; f_equal; auto.
Qed.

End MoreContainer.

(* ------------------------------------------------------------------ *)
(** ** Further properties of the Python objects *)

Section MoreHeap.
Context {K V : Type} `{EqDecision K} `{NativeMap K V}.
Implicit Types (st : @state K V).


(** A [__delitem__] that raises leaves every Python object as it was. *)
Theorem failed_delitem_no_effect st l k e st' :
  py_delitem l k st = Some (RErr e, st') -> st' = st /\ e = KeyError.
Proof.
  unfold py_delitem. destruct (heap st !! l) as [[m| |]|] eqn:Hm; try discriminate.
  unfold delitem. destruct (find m k); [discriminate|].
  intros [= <- <-]. split; [|done].
  destruct st as [h ed rs nx]. unfold set_map. simpl in *.
  by rewrite insert_id.
Qed.


(** [keys()], [values()] and [items()] build a new view object on every
    call: two calls give two distinct objects over the same map, neither
    of which existed before. *)
Theorem views_are_fresh st vk vk' l r1 st1 r2 st2 :
  reach_st st ->
  py_view vk l st = Some (r1, st1) -> py_view vk' l st1 = Some (r2, st2) ->
  heap st !! r1 = None /\ heap st1 !! r2 = None /\ r1 ≠ r2 /\
  heap st2 !! r1 = Some (ViewObj vk l) /\ heap st2 !! r2 = Some (ViewObj vk' l).
Proof.
  intros Hst. destruct (reach_inv st Hst) as (_ & _ & Hh & _).
  unfold py_view. destruct (heap st !! l) as [[m| |]|] eqn:Hm; try discriminate.
  intros [= <- <-]. simpl. rewrite lookup_insert_ne by (apply Hh in Hm; lia).
  rewrite Hm. intros [= <- <-]. simpl.
  assert (Hr1 : heap st !! next st = None).
  { destruct (heap st !! next st) eqn:E; [|done]. apply Hh in E. lia. }
  assert (Hr2 : heap st !! S (next st) = None).
  { destruct (heap st !! S (next st)) eqn:E; [|done]. apply Hh in E. lia. }
  split_and!; try done; try lia.
  - rewrite lookup_insert_ne by lia. done.
  - rewrite lookup_insert_ne by lia. apply lookup_insert_eq.
  - apply lookup_insert_eq.
Qed.

(** Collecting an object Python cannot reach never changes what a view
    Python can reach reports. *)
Theorem collect_preserves_views st x vo :
  reach_st st -> reachable st vo -> ¬ reachable st x ->
  view_map (collect x st) vo = view_map st vo.
Proof.
  intros Hst Hvo Hx. destruct (reach_inv st Hst) as (_ & _ & _ & Hreach).
  assert (Hne : vo ≠ x) by (intros ->; contradiction).
  unfold view_map. simpl. rewrite lookup_delete_ne by done.
  destruct (heap st !! vo) as [[m|vk l|fl s]|] eqn:Hv; try done.
  destruct (Hreach vo Hvo) as (ob & Hob & Hok). rewrite Hv in Hob. injection Hob as <-.
  destruct Hok as [He _].
  assert (Hl : l ≠ x) by (intros ->; apply Hx; by eapply reach_tie).
  by rewrite lookup_delete_ne by done.
Qed.

End MoreHeap.

(* ------------------------------------------------------------------ *)
(** ** Concrete runs of the further properties *)

Lemma session5_reach : reach_st session5.
Proof. apply (reach_step session4 session5); [apply session4_reach|apply step_drop]. Qed.

Lemma strategies_agree_witness :
  wf sample_map /\
  setitem AssignInPlace sample_map 4 40 = setitem EraseReconstruct sample_map 4 40.
Proof.
  split; [apply sample_map_wf|].
  destruct (strategies_agree sample_map 4 40 sample_map_wf) as (_ & _ & Heq).
  apply Heq. reflexivity.
Defined.

Lemma assign_in_place_keeps_order_witness :
  find sample_map 3 = Some 1 /\ (setitem AssignInPlace sample_map 3 33).*1 = [1; 3; 5].
Proof.
  assert (Hf : find sample_map 3 = Some 1) by reflexivity.
  split; [exact Hf|].
  destruct (assign_in_place_keeps_order sample_map 3 33 1 Hf) as (Hk & _).
  rewrite Hk. reflexivity.
Defined.

Lemma setitem_setitem_witness :
  wf sample_map /\
  setitem EraseReconstruct (setitem EraseReconstruct sample_map 3 31) 3 32 =
    [(1, 10); (3, 32); (5, 50)].
Proof.
  split; [apply sample_map_wf|].
  rewrite (setitem_setitem EraseReconstruct sample_map 3 31 32 sample_map_wf).
  reflexivity.
Defined.


Lemma getitem_after_delitem_witness :
  wf sample_map /\ (getitem (delitem sample_map 3).2 3).1 = RErr KeyError.
Proof.
  split; [apply sample_map_wf|].
  rewrite (getitem_after_delitem sample_map 3 sample_map_wf). reflexivity.
Defined.

Lemma mutations_keep_keys_unique_witness :
  wf sample_map /\ wf (setitem EraseReconstruct sample_map 0 1).
Proof.
  split; [apply sample_map_wf|].
  apply (mutations_keep_keys_unique EraseReconstruct sample_map 0 1 sample_map_wf).
Defined.

Lemma contains_iff_getitem_witness :
  cast_key (PInt 4) = Some 4 /\ getitem sample_map 4 = (RErr KeyError, sample_map).
Proof.
  assert (Hc : cast_key (PInt 4) = Some 4) by reflexivity.
  split; [exact Hc|].
  apply (contains_iff_getitem sample_map (PInt 4) 4 Hc). reflexivity.
Defined.

Lemma getitem_reference_aliases_witness :
  getitem_ref sample_map 5 = ROk 2 /\
  (getitem (update_through 2 (fun v => v + 1) sample_map) 5).1 = ROk 51.
Proof.
  assert (Hr : getitem_ref sample_map 5 = ROk 2) by reflexivity.
  split; [exact Hr|].
  destruct (getitem_reference_aliases sample_map 5 2 (fun v => v + 1) Hr) as (Hv & _).
  apply (Hv 50). reflexivity.
Defined.

Lemma failed_delitem_no_effect_witness :
  py_delitem 0 9 session3 = Some (RErr KeyError, session3) /\ session3 = session3.
Proof.
  assert (Hd : py_delitem 0 9 session3 = Some (RErr KeyError, session3))
    by (vm_compute; reflexivity).
  split; [exact Hd|].
  exact (proj1 (failed_delitem_no_effect session3 0 9 KeyError session3 Hd)).
Defined.


Lemma views_are_fresh_witness :
  py_view ValuesView 0 session3 = Some (2, session3v) /\
  py_view ItemsView 0 session3v = Some (3, session3vi) /\
  heap session3vi !! 2 = Some (ViewObj ValuesView 0).
Proof.
  assert (H1 : py_view ValuesView 0 session3 = Some (2, session3v)) by (vm_compute; reflexivity).
  assert (H2 : py_view ItemsView 0 session3v = Some (3, session3vi)) by (vm_compute; reflexivity).
  split_and!; [exact H1|exact H2|].
  exact (proj1 (proj2 (proj2 (proj2
           (views_are_fresh session3 ValuesView ItemsView 0 2 session3v 3 session3vi
              session3_reach H1 H2))))).
Defined.

Lemma collect_preserves_views_witness :
  reachable session5 1 /\ ¬ reachable session5 2 /\
  view_map (collect 2 session5) 1 = Some (KeysView, [(1, 10); (7, 70)]).
Proof.
  assert (Hr : reachable session5 1) by (apply reach_root; by_eval).
  assert (Hn : ¬ reachable session5 2).
  { intros Hx. inversion Hx as [r Hin|n p _ Hin]; subst.
    - revert Hin. vm_compute. intros Hin. apply list_elem_of_In in Hin.
      simpl in Hin. destruct Hin as [Hin|[Hin|[]]]; discriminate.
    - revert Hin. vm_compute. intros Hin. apply list_elem_of_In in Hin.
      simpl in Hin. destruct Hin as [Hin|[Hin|[]]]; discriminate. }
  split_and!; [exact Hr|exact Hn|].
  rewrite (collect_preserves_views session5 2 1 session5_reach Hr Hn).
  vm_compute. reflexivity.
Defined.
